(** * stress-lb: a shallow embedding of src/main.rs

    The program stresses the kernel load balancer: spin workers pinned to
    cores 1..N, and one carrier thread on core 0 woken by a POSIX timer whose
    SIGALRM is directed at that thread.  The OS calls the code makes
    ([timer_create], [timer_settime], [timer_delete]) are modelled by an
    oracle that fixes their results and a log recording every call with its
    arguments. *)

From Stdlib Require Import ZArith List Lia Bool.
Import ListNotations.
Open Scope Z_scope.

(** ** libc values used by the code (Linux, x86_64) *)
Module Libc.

Definition CLOCK_MONOTONIC : Z := 1.
Definition SIGALRM : Z := 14.
Definition SIGEV_THREAD_ID : Z := 4.

(** A [*mut c_void]: the address as an integer, [0] being the null pointer. *)
Definition ptr := Z.
Definition null_mut : ptr := 0.
Definition is_null (p : ptr) : bool := p =? 0.

(** [libc::sigevent], restricted to the fields the code writes;
    [mem::zeroed()] gives all of them the value 0. *)
Record sigevent := mk_sigevent {
  sigev_notify : Z;
  sigev_signo : Z;
  sigev_notify_thread_id : Z
}.
Definition sigevent_zeroed : sigevent := mk_sigevent 0 0 0.

Record timespec := mk_timespec { tv_sec : Z; tv_nsec : Z }.
Record itimerspec := mk_itimerspec { it_interval : timespec; it_value : timespec }.

(** The calls the program issues, with their arguments. *)
Inductive os_call :=
| Timer_create (clockid : Z) (sevp : sigevent)
| Timer_settime (timerid : ptr) (flags : Z) (new_value : itimerspec)
| Timer_delete (timerid : ptr).

(** The OS oracle: what [timer_create] answers ([Some h]: success, the
    handle [h] is stored through the out pointer; [None]: failure, [-1]
    returned and the out pointer left untouched), whether [timer_settime]
    succeeds, and the [errno] value read after a failure. *)
Record os := mk_os {
  create_result : option ptr;
  settime_ok : bool;
  os_errno : Z
}.

End Libc.
Import Libc.

(** ** The effect monad: reading the OS oracle, writing the call log *)
Definition M (A : Type) : Type := os -> A * list os_call.
Definition ret {A} (a : A) : M A := fun _ => (a, []).
Definition bind {A B} (m : M A) (k : A -> M B) : M B :=
  fun o => let '(a, l1) := m o in let '(b, l2) := k a o in (b, l1 ++ l2).
Notation "x <- m ;; k" := (bind m (fun x => k))
  (at level 61, m at next level, right associativity).
Notation "m ;;; k" := (bind m (fun _ => k)) (at level 61, right associativity).

Definition emit (c : os_call) : M unit := fun _ => (tt, [c]).

(** [libc::timer_create(clockid, sevp, &mut out)]: returns the C result and
    the value of [out] afterwards. *)
Definition timer_create (clockid : Z) (sevp : sigevent) (out : ptr) : M (Z * ptr) :=
  emit (Timer_create clockid sevp) ;;;
  fun o => match create_result o with
           | Some h => ((0, h), [])
           | None => ((-1, out), [])
           end.

Definition timer_settime (t : ptr) (flags : Z) (v : itimerspec) : M Z :=
  emit (Timer_settime t flags v) ;;;
  fun o => ((if settime_ok o then 0 else -1), []).

Definition timer_delete (t : ptr) : M Z :=
  emit (Timer_delete t) ;;; ret 0.

Definition errno : M Z := fun o => (os_errno o, []).

(** ** Rust integers *)
Definition u64_max : Z := 2 ^ 64 - 1.
Definition i64_max : Z := 2 ^ 63 - 1.
(** [x as i64] for an unsigned [x]: two's complement wrap-around. *)
Definition as_i64 (x : Z) : Z :=
  let m := x mod 2 ^ 64 in if m <=? i64_max then m else m - 2 ^ 64.

(** [std::time::Duration]: whole seconds (a [u64]) and nanoseconds
    (a [u32] below 10^9). *)
Record Duration := mk_Duration { secs : Z; nanos : Z }.
Definition Duration_wf (d : Duration) : Prop :=
  0 <= secs d <= u64_max /\ 0 <= nanos d < 1000000000.
Definition as_secs (d : Duration) : Z := secs d.
Definition subsec_nanos (d : Duration) : Z := nanos d.

(** ** [TimerId], [Timer], [Timer::new] *)
Module Timer.

Record TimerId := mk_TimerId { tid_ptr : ptr }.

(** [impl Drop for TimerId] *)
Definition TimerId_drop (t : TimerId) : M unit :=
  if negb (is_null (tid_ptr t)) then timer_delete (tid_ptr t) ;;; ret tt
  else ret tt.

Record Timer := mk_Timer { timer_id : TimerId }.

(** Dropping a [Timer] drops its only field. *)
Definition Timer_drop (t : Timer) : M unit := TimerId_drop (timer_id t).

Inductive result (A : Type) := Ok (a : A) | Err (e : Z).
Arguments Ok {A} a.
Arguments Err {A} e.

(** [Timer::new(thread_id, dur)].  Each [Err] return drops the local
    [timerid] after [errno()] has been read, as Rust does at the [return]. *)
Definition new (thread_id : Z) (dur : Duration) : M (result Timer) :=
  let timerid := mk_TimerId null_mut in
  let sigev := sigevent_zeroed in
  let sigev := {| sigev_notify := SIGEV_THREAD_ID;
                  sigev_signo := sigev_signo sigev;
                  sigev_notify_thread_id := sigev_notify_thread_id sigev |} in
  let sigev := {| sigev_notify := sigev_notify sigev;
                  sigev_signo := SIGALRM;
                  sigev_notify_thread_id := sigev_notify_thread_id sigev |} in
  let sigev := {| sigev_notify := sigev_notify sigev;
                  sigev_signo := sigev_signo sigev;
                  sigev_notify_thread_id := thread_id |} in
  r <- timer_create CLOCK_MONOTONIC sigev (tid_ptr timerid) ;;
  let '(ret0, p) := r in
  let timerid := mk_TimerId p in
  if ret0 <? 0 then
    e <- errno ;; TimerId_drop timerid ;;; ret (Err e)
  else
    let sec := as_i64 (as_secs dur) in
    let nsec := subsec_nanos dur in
    let tmspec := mk_itimerspec (mk_timespec sec nsec) (mk_timespec sec nsec) in
    ret1 <- timer_settime (tid_ptr timerid) 0 tmspec ;;
    if ret1 <? 0 then
      e <- errno ;; TimerId_drop timerid ;;; ret (Err e)
    else ret (Ok (mk_Timer timerid)).

(** A construction attempt followed by the drop of what it returned: the
    whole life of one timer resource. *)
Definition new_then_drop (thread_id : Z) (dur : Duration) : M unit :=
  r <- new thread_id dur ;;
  match r with Ok t => Timer_drop t | Err _ => ret tt end.

Definition is_create (c : os_call) : bool :=
  match c with Timer_create _ _ => true | _ => false end.
Definition is_delete (c : os_call) : bool :=
  match c with Timer_delete _ => true | _ => false end.

Definition creates (l : list os_call) : nat := length (filter is_create l).
Definition deletes (l : list os_call) : nat := length (filter is_delete l).

End Timer.

(** ** [TimerThread] *)
Module TT.
Import Timer.

(** What [JoinHandle::join] reports: the thread returned, or it panicked. *)
Inductive thread_result := Finished | Panicked.
Record JoinHandle := mk_JoinHandle { jh_result : thread_result }.

Record TimerThread := mk_TimerThread {
  timer : option Timer;
  thread_handle : option JoinHandle
}.

(** What a Rust call does: return a value, or panic. *)
Inductive outcome (A : Type) := Returns (a : A) | Panics.
Arguments Returns {A} a.
Arguments Panics {A}.

(** [TimerThread::join]:
    [mem::replace(&mut self.thread_handle, None).unwrap().join()].
    The field is emptied before [unwrap] runs. *)
Definition join (self : TimerThread) : outcome thread_result * TimerThread :=
  let old := thread_handle self in
  let self' := mk_TimerThread (timer self) None in
  match old with
  | Some h => (Returns (jh_result h), self')
  | None => (Panics, self')
  end.

(** Dropping a [TimerThread]: its fields in declaration order; the
    [JoinHandle], if still present, only detaches the thread. *)
Definition drop (self : TimerThread) : M unit :=
  match timer self with Some t => Timer_drop t | None => ret tt end.

End TT.

(** ** [TimerThread::new] and the carrier thread, as two interleaved threads

    The constructing thread: [Signals::new(&[SIGALRM])?] installs the
    interception of SIGALRM, [mpsc::channel()] makes a fresh channel,
    [thread::spawn] starts the carrier, [rx.recv()?] blocks until a value is
    in the channel, then [Timer::new(thread_id, interval)?].

    The carrier thread: [tx.send(gettid()).unwrap()], then
    [set_thread_affinity(&[0]).unwrap()], then
    [set_self_policy(Policy::Fifo, priority).unwrap()], then the signal loop. *)
Module Handoff.
Import Timer.

Inductive ctor_pc :=
| CInit                      (* before [Signals::new] *)
| CFailed                    (* [Signals::new] returned an error *)
| CSpawned                   (* carrier spawned, waiting in [rx.recv()] *)
| CGot (thread_id : Z)       (* [rx.recv()] returned [thread_id] *)
| CDone (r : result Timer).  (* [Timer::new] returned *)

Inductive carrier_pc :=
| KNotSpawned | KStart | KSent | KPinned | KFifo | KLoop | KPanicked.

(** The carrier has run its [tx.send]. *)
Definition published (k : carrier_pc) : bool :=
  match k with KNotSpawned | KStart => false | _ => true end.

Record st := mk_st {
  ctor : ctor_pc;
  carrier : carrier_pc;
  sig_installed : bool;          (* SIGALRM intercepted by [signal_hook] *)
  chan : list Z;                 (* values sent and not yet received *)
  affinity : option (list Z);    (* the carrier's core mask, once set *)
  policy : option Z;             (* the carrier's FIFO priority, once set *)
  log : list os_call             (* OS timer calls made so far *)
}.

Definition init : st := mk_st CInit KNotSpawned false [] None None [].

Section Steps.
(** [libc::gettid()] as evaluated by the carrier thread. *)
Variable gettid : Z.
Variable interval : Duration.
Variable priority : Z.
Variable o : os.

Inductive step : st -> st -> Prop :=
| step_signals_fail : forall s,
    ctor s = CInit ->
    step s (mk_st CFailed (carrier s) (sig_installed s) (chan s)
                  (affinity s) (policy s) (log s))
| step_signals_spawn : forall s,
    ctor s = CInit ->
    step s (mk_st CSpawned KStart true [] (affinity s) (policy s) (log s))
| step_send : forall s,
    carrier s = KStart ->
    step s (mk_st (ctor s) KSent (sig_installed s) (chan s ++ [gettid])
                  (affinity s) (policy s) (log s))
| step_recv : forall s t rest,
    ctor s = CSpawned -> chan s = t :: rest ->
    step s (mk_st (CGot t) (carrier s) (sig_installed s) rest
                  (affinity s) (policy s) (log s))
| step_timer_new : forall s t,
    ctor s = CGot t ->
    step s (mk_st (CDone (fst (new t interval o))) (carrier s) (sig_installed s)
                  (chan s) (affinity s) (policy s)
                  (log s ++ snd (new t interval o)))
| step_affinity : forall s,
    carrier s = KSent ->
    step s (mk_st (ctor s) KPinned (sig_installed s) (chan s)
                  (Some [0]) (policy s) (log s))
| step_affinity_fail : forall s,
    carrier s = KSent ->
    step s (mk_st (ctor s) KPanicked (sig_installed s) (chan s)
                  (affinity s) (policy s) (log s))
| step_policy : forall s,
    carrier s = KPinned ->
    step s (mk_st (ctor s) KFifo (sig_installed s) (chan s)
                  (affinity s) (Some priority) (log s))
| step_policy_fail : forall s,
    carrier s = KPinned ->
    step s (mk_st (ctor s) KPanicked (sig_installed s) (chan s)
                  (affinity s) (policy s) (log s))
| step_loop : forall s,
    carrier s = KFifo ->
    step s (mk_st (ctor s) KLoop (sig_installed s) (chan s)
                  (affinity s) (policy s) (log s)).

Inductive reachable : st -> Prop :=
| reach_init : reachable init
| reach_step : forall s s', reachable s -> step s s' -> reachable s'.

End Steps.
End Handoff.

(** ** [run_worker_threads]

    [(get_core_num() - 1) * threads_per_core] is [usize] arithmetic: an
    overflow panics in a build with overflow checks (the default debug
    profile) and wraps around in a release build. *)
Module Workers.

Inductive profile := Debug | Release.

Definition usize_sub (p : profile) (a b : Z) : option Z :=
  match p with
  | Debug => if a - b <? 0 then None else Some (a - b)
  | Release => Some ((a - b) mod 2 ^ 64)
  end.

Definition usize_mul (p : profile) (a b : Z) : option Z :=
  match p with
  | Debug => if u64_max <? a * b then None else Some (a * b)
  | Release => Some ((a * b) mod 2 ^ 64)
  end.

(** A spawned spin worker, with the core mask it pins itself to:
    [(1..get_core_num()).collect()]. *)
Record Worker := mk_Worker { core_mask : list Z }.

Definition spawn_worker (core_num : Z) : Worker :=
  mk_Worker (map Z.of_nat (seq 1 (Z.to_nat core_num - 1))).

(** [n] workers spawned one after the other by
    [(0..n).map(|_| thread::spawn(...))]. *)
Definition spawn_n (core_num n : Z) : list Worker :=
  map (fun _ => spawn_worker core_num) (seq 0 (Z.to_nat n)).

(** How a call of [run_worker_threads] ends: the workers started, and
    whether the call panicked instead of returning them. *)
Record outcome := mk_outcome { started : list Worker; panicked : bool }.

(** [os_threads] is how many more threads the OS lets the process create:
    [thread::spawn] panics on the first spawn it refuses, after the workers
    spawned before it have started.  An overflow of [num_threads] in a debug
    build panics before any spawn. *)
Definition run_worker_threads (p : profile) (os_threads core_num threads_per_core : Z)
  : outcome :=
  match usize_sub p core_num 1 with
  | None => mk_outcome [] true
  | Some c =>
      match usize_mul p c threads_per_core with
      | None => mk_outcome [] true
      | Some num_threads =>
          if num_threads <=? os_threads
          then mk_outcome (spawn_n core_num num_threads) false
          else mk_outcome (spawn_n core_num os_threads) true
      end
  end.


End Workers.

(** ** The shutdown flag during a run

    After [TimerThread::new] has returned, [main] sleeps, runs
    [quit.store(true, Release)] and joins the carrier and then the workers.
    Each spin worker runs [while !myquit.load(Acquire) { dummy += 1 }]; the
    carrier runs [for _ in signals.forever() { if quit.load(Acquire)
    { return; } }].  The threads interleave arbitrarily; [writes] records every
    store to the flag with the value stored.  A step of the carrier is one
    delivery of SIGALRM followed by its load of the flag; the relation allows
    a delivery at any time, so its runs include every run of the program and
    are meant for properties that hold in all of them, not for showing that
    a signal does arrive. *)
Module Run.

Inductive main_pc := MSleep | MJoinCarrier | MJoinWorkers (n : nat) | MExit.
Inductive worker_pc := WSpin (dummy : Z) | WDone.
Inductive carrier_pc := LAwait | LReturned.

Record st := mk_st {
  flag : bool;
  writes : list bool;
  main : main_pc;
  workers : list worker_pc;
  carrier : carrier_pc
}.

(** [Arc::new(AtomicBool::new(false))]; every worker starts spinning. *)
Definition init (n : nat) : st := mk_st false [] MSleep (repeat (WSpin 0) n) LAwait.

Fixpoint set_nth {A} (l : list A) (i : nat) (x : A) : list A :=
  match l, i with
  | [], _ => []
  | _ :: r, O => x :: r
  | y :: r, S i => y :: set_nth r i x
  end.

(** One iteration of a worker's loop body, after its load of the flag. *)
Definition worker_iter (flag : bool) (w : worker_pc) : worker_pc :=
  match w with
  | WSpin d => if flag then WDone else WSpin ((d + 1) mod 2 ^ 64)
  | WDone => WDone
  end.

Inductive label := LMain | LWorker (i : nat) | LCarrier.

Inductive lstep : label -> st -> st -> Prop :=
| step_store : forall s,
    main s = MSleep ->
    lstep LMain s (mk_st true (writes s ++ [true]) MJoinCarrier (workers s) (carrier s))
| step_join_carrier : forall s,
    main s = MJoinCarrier -> carrier s = LReturned ->
    lstep LMain s (mk_st (flag s) (writes s) (MJoinWorkers 0) (workers s) (carrier s))
| step_join_worker : forall s n,
    main s = MJoinWorkers n -> nth_error (workers s) n = Some WDone ->
    lstep LMain s (mk_st (flag s) (writes s) (MJoinWorkers (S n)) (workers s) (carrier s))
| step_exit : forall s n,
    main s = MJoinWorkers n -> n = length (workers s) ->
    lstep LMain s (mk_st (flag s) (writes s) MExit (workers s) (carrier s))
| step_worker : forall s i d,
    nth_error (workers s) i = Some (WSpin d) ->
    lstep (LWorker i) s (mk_st (flag s) (writes s) (main s)
                           (set_nth (workers s) i (worker_iter (flag s) (WSpin d)))
                           (carrier s))
| step_signal : forall s,
    carrier s = LAwait ->
    lstep LCarrier s (mk_st (flag s) (writes s) (main s) (workers s)
                        (if flag s then LReturned else LAwait)).

Inductive reachable (n : nat) : st -> Prop :=
| reach_init : reachable n (init n)
| reach_step : forall l s s', reachable n s -> lstep l s s' -> reachable n s'.

End Run.

(** ** The end of [main]

    [thread::sleep(dur); quit.store(true); timer.join().unwrap();
    for t in threads { t.join().unwrap(); }], then the locals are dropped at
    the end of [main], or while unwinding when an [unwrap] panics.  The
    [TimerThread] drop is where the OS timer is deleted. *)
Module Main.
Import TT.

Inductive event :=
| ESleep
| EStore
| EJoinCarrier
| EJoinWorker (i : nat)
| EPanic
| EOs (c : os_call).

(** [for t in threads { t.join().unwrap(); }] from index [i]; the boolean
    says whether an [unwrap] panicked. *)
Fixpoint join_workers (i : nat) (threads : list JoinHandle) : list event * bool :=
  match threads with
  | [] => ([], false)
  | h :: r =>
      match jh_result h with
      | Finished => let '(evs, p) := join_workers (S i) r in (EJoinWorker i :: evs, p)
      | Panicked => ([EJoinWorker i], true)
      end
  end.

Definition shutdown (timer : TimerThread) (threads : list JoinHandle) (o : os)
  : list event :=
  let drop_timer (t : TimerThread) := map EOs (snd (TT.drop t o)) in
  [ESleep; EStore] ++
  match TT.join timer with
  | (Returns Finished, timer') =>
      let '(evs, panicked) := join_workers 0 threads in
      [EJoinCarrier] ++ evs ++ (if panicked then [EPanic] else []) ++ drop_timer timer'
  | (Returns Panicked, timer') => [EJoinCarrier; EPanic] ++ drop_timer timer'
  | (Panics, timer') => [EPanic] ++ drop_timer timer'
  end.

Definition is_os (e : event) : bool :=
  match e with EOs _ => true | _ => false end.

Definition all_finished (hs : list JoinHandle) : bool :=
  forallb (fun h => match jh_result h with Finished => true | Panicked => false end) hs.

End Main.

(** ** Runs of several steps *)
Module Reach.

(** Any finite sequence of steps of [TimerThread::new] and its carrier. *)
Inductive handoff_steps (g : Z) (iv : Duration) (pr : Z) (o : os)
  : Handoff.st -> Handoff.st -> Prop :=
| hs_refl : forall s, handoff_steps g iv pr o s s
| hs_step : forall s s' s'', Handoff.step g iv pr o s s' ->
    handoff_steps g iv pr o s' s'' -> handoff_steps g iv pr o s s''.

End Reach.

(** ** Invariants used by the proofs *)
Module Invariants.
Import Handoff.

(** What every reachable state of [TimerThread::new] satisfies, for the
    carrier's thread id [gettid]. *)
Definition handoff_inv (gettid : Z) (s : st) : Prop :=
  (ctor s = CInit -> s = init) /\
  Forall (eq gettid) (chan s) /\
  (chan s <> [] -> published (carrier s) = true) /\
  (forall t, ctor s = CGot t -> t = gettid /\ published (carrier s) = true) /\
  (forall r, ctor s = CDone r -> published (carrier s) = true) /\
  (forall clk ev, In (Timer_create clk ev) (log s) -> sigev_notify_thread_id ev = gettid) /\
  (log s <> [] -> published (carrier s) = true) /\
  (carrier s <> KNotSpawned -> sig_installed s = true) /\
  (affinity s <> None -> published (carrier s) = true /\ affinity s = Some [0]) /\
  (carrier s = KPinned -> affinity s = Some [0]) /\
  (policy s <> None -> affinity s = Some [0]).

(** The flag has not been stored to yet, or has been stored to once, with
    [true], by [main]. *)
Definition run_inv (s : Run.st) : Prop :=
  (Run.writes s = [] /\ Run.flag s = false /\ Run.main s = Run.MSleep) \/
  (Run.writes s = [true] /\ Run.flag s = true /\ Run.main s <> Run.MSleep).

(** The exact shape of each phase of [TimerThread::new]. *)
Definition handoff_shape (gettid : Z) (iv : Duration) (o : os) (s : st) : Prop :=
  (ctor s = CFailed -> carrier s = KNotSpawned /\ log s = [] /\ chan s = []) /\
  (ctor s = CSpawned -> log s = [] /\
     ((carrier s = KStart /\ chan s = []) \/
      (published (carrier s) = true /\ chan s = [gettid]))) /\
  (forall t, ctor s = CGot t -> log s = [] /\ chan s = []) /\
  (forall r, ctor s = CDone r -> chan s = [] /\
     r = fst (Timer.new gettid iv o) /\ log s = snd (Timer.new gettid iv o)).

(** Who has stopped, and what [main] has joined. *)
Definition run_progress (s : Run.st) : Prop :=
  (forall i, nth_error (Run.workers s) i = Some Run.WDone -> Run.flag s = true) /\
  (Run.carrier s = Run.LReturned -> Run.flag s = true) /\
  (forall n, Run.main s = Run.MJoinWorkers n ->
     Run.carrier s = Run.LReturned /\
     forall i, (i < n)%nat -> nth_error (Run.workers s) i = Some Run.WDone) /\
  (Run.main s = Run.MExit ->
     Run.carrier s = Run.LReturned /\ Forall (eq Run.WDone) (Run.workers s)).

End Invariants.

(** * Properties *)

(** ** [Timer::new] and the timer's release *)

Ltac run_timer o :=
  unfold Timer.new_then_drop, Timer.new, Timer.Timer_drop, Timer.TimerId_drop,
    timer_create, timer_settime, timer_delete, errno, emit, bind, ret in *;
  destruct o as [[?h|] [|] ?e]; simpl in *.

Lemma timer_new_calls : forall tid dur o,
  snd (Timer.new tid dur o) =
  Timer_create CLOCK_MONOTONIC (mk_sigevent SIGEV_THREAD_ID SIGALRM tid) ::
  match create_result o with
  | None => []
  | Some h =>
      Timer_settime h 0
        (mk_itimerspec (mk_timespec (as_i64 (secs dur)) (nanos dur))
                       (mk_timespec (as_i64 (secs dur)) (nanos dur))) ::
      (if settime_ok o then []
       else if negb (is_null h) then [Timer_delete h] else [])
  end.
Proof.
  intros tid dur o. run_timer o; try reflexivity;
    unfold is_null; destruct (h =? 0); reflexivity.
Qed.

Lemma timer_new_result : forall tid dur o,
  fst (Timer.new tid dur o) =
  match create_result o with
  | None => Timer.Err (os_errno o)
  | Some h => if settime_ok o then Timer.Ok (Timer.mk_Timer (Timer.mk_TimerId h))
              else Timer.Err (os_errno o)
  end.
Proof.
  intros tid dur o. run_timer o; try reflexivity;
    unfold is_null; destruct (h =? 0); reflexivity.
Qed.

Lemma new_then_drop_calls : forall tid dur o,
  snd (Timer.new_then_drop tid dur o) =
  snd (Timer.new tid dur o) ++
  match create_result o with
  | Some h => if settime_ok o then (if negb (is_null h) then [Timer_delete h] else [])
              else []
  | None => []
  end.
Proof.
  intros tid dur o.
  unfold Timer.new_then_drop, bind at 1.
  destruct (Timer.new tid dur o) as [r l] eqn:E.
  pose proof (timer_new_result tid dur o) as R. rewrite E in R. simpl in R |- *.
  destruct (create_result o) as [h|]; [destruct (settime_ok o)|]; subst r;
    unfold Timer.Timer_drop, Timer.TimerId_drop, timer_delete, emit, bind, ret; simpl;
    try (destruct (negb (is_null h)); simpl); rewrite ?app_nil_r; reflexivity.
Qed.

(** A handle the OS gives that is not the null pointer is deleted exactly
    once over construction and drop, whichever way construction ends; a
    failed [timer_create] leaves nothing to delete. *)
Lemma timer_release_balanced_nonnull : forall tid dur o,
  (forall h, create_result o = Some h -> h <> 0) ->
  Timer.creates (snd (Timer.new_then_drop tid dur o)) = 1%nat /\
  Timer.deletes (snd (Timer.new_then_drop tid dur o)) =
    match create_result o with Some _ => 1%nat | None => 0%nat end.
Proof.
  intros tid dur o Hnn.
  rewrite new_then_drop_calls, timer_new_calls.
  destruct (create_result o) as [h|] eqn:Hc; [|split; reflexivity].
  assert (is_null h = false) as Hn
    by (unfold is_null; apply Z.eqb_neq; exact (Hnn h eq_refl)).
  rewrite Hn; destruct (settime_ok o); split; reflexivity.
Qed.

(** [TimerId::drop] on the null handle makes no OS call. *)
Lemma timer_id_drop_null : forall o,
  snd (Timer.TimerId_drop (Timer.mk_TimerId null_mut) o) = [].
Proof. reflexivity. Qed.

(** C1 (code_bug). [TimerId] uses the null pointer to mean "no timer", but
    [timer_create] can store a null [timer_t]: on Linux the kernel numbers
    a process's POSIX timers from 0, and glibc (since 2.34) and musl return
    that number as the [timer_t].  When the OS hands back handle 0, the
    timer is created and armed, [Timer::new] returns [Ok], and dropping the
    [Timer] makes no [timer_delete] call: one create, no release. *)
Theorem timer_null_handle_never_released :
  let l := snd (Timer.new_then_drop 1234 (mk_Duration 0 1000000) (mk_os (Some 0) true 0)) in
  fst (Timer.new 1234 (mk_Duration 0 1000000) (mk_os (Some 0) true 0))
    = Timer.Ok (Timer.mk_Timer (Timer.mk_TimerId 0)) /\
  Timer.creates l = 1%nat /\ Timer.deletes l = 0%nat.
Proof. vm_compute. repeat split. Qed.

(** C3. The only [timer_create] call [Timer::new] issues uses
    [CLOCK_MONOTONIC], and its [sigevent] directs SIGALRM at the given
    thread: [sigev_notify = SIGEV_THREAD_ID] and
    [sigev_notify_thread_id = thread_id]. *)
Theorem timer_new_thread_directed : forall tid dur o clk ev,
  In (Timer_create clk ev) (snd (Timer.new tid dur o)) ->
  Timer.creates (snd (Timer.new tid dur o)) = 1%nat /\
  clk = CLOCK_MONOTONIC /\ sigev_notify ev = SIGEV_THREAD_ID /\
  sigev_signo ev = SIGALRM /\ sigev_notify_thread_id ev = tid.
Proof.
  intros tid dur o clk ev H. rewrite timer_new_calls in H |- *.
  destruct H as [H|H]; [inversion H; subst; destruct (create_result o);
    [destruct (settime_ok o); [|destruct (negb (is_null p))]|]; repeat split|].
  destruct (create_result o) as [h|]; [|contradiction].
  destruct H as [H|H]; [discriminate|].
  destruct (settime_ok o); [contradiction|].
  destruct (negb (is_null h)); [destruct H as [H|H]; [discriminate|contradiction]|contradiction].
Qed.

Lemma as_i64_small : forall x, 0 <= x <= i64_max -> as_i64 x = x.
Proof.
  intros x Hx. unfold as_i64, i64_max in *.
  rewrite Z.mod_small by lia.
  destruct (x <=? 2 ^ 63 - 1) eqn:E; [reflexivity|apply Z.leb_gt in E; lia].
Qed.

(** C4 (amended).  The [itimerspec] passed to [timer_settime] has
    [it_value = it_interval]: no distinct first delay.  Both hold
    [dur.as_secs() as i64] and [dur.subsec_nanos()], which is the interval
    itself whenever its seconds fit in an [i64]. *)
Theorem timer_new_equal_delay_and_period : forall tid dur o h f sp,
  Duration_wf dur ->
  In (Timer_settime h f sp) (snd (Timer.new tid dur o)) ->
  it_value sp = it_interval sp /\
  it_interval sp = mk_timespec (as_i64 (secs dur)) (nanos dur) /\
  (secs dur <= i64_max -> it_interval sp = mk_timespec (secs dur) (nanos dur)).
Proof.
  intros tid dur o h f sp Hwf H. rewrite timer_new_calls in H.
  destruct H as [H|H]; [discriminate|].
  destruct (create_result o) as [h'|]; [|contradiction].
  destruct H as [H|H].
  - inversion H; subst; simpl. repeat split. intros Hs.
    unfold Duration_wf in Hwf. rewrite as_i64_small by lia. reflexivity.
  - destruct (settime_ok o); [contradiction|].
    destruct (negb (is_null h')); [destruct H as [H|H]; [discriminate|contradiction]|contradiction].
Qed.

Lemma timer_new_thread_directed_witness :
  In (Timer_create CLOCK_MONOTONIC (mk_sigevent SIGEV_THREAD_ID SIGALRM 1234))
     (snd (Timer.new 1234 (mk_Duration 0 1000000) (mk_os (Some 7) true 0))) /\
  sigev_notify_thread_id (mk_sigevent SIGEV_THREAD_ID SIGALRM 1234) = 1234.
Proof.
  assert (H : In (Timer_create CLOCK_MONOTONIC (mk_sigevent SIGEV_THREAD_ID SIGALRM 1234))
                 (snd (Timer.new 1234 (mk_Duration 0 1000000) (mk_os (Some 7) true 0))))
    by (vm_compute; left; reflexivity).
  split; [exact H|].
  exact (proj2 (proj2 (proj2 (proj2
           (timer_new_thread_directed 1234 (mk_Duration 0 1000000) (mk_os (Some 7) true 0)
              CLOCK_MONOTONIC (mk_sigevent SIGEV_THREAD_ID SIGALRM 1234) H))))).
Defined.

Lemma timer_new_equal_delay_and_period_witness :
  let sp := mk_itimerspec (mk_timespec 1 500) (mk_timespec 1 500) in
  Duration_wf (mk_Duration 1 500) /\
  In (Timer_settime 7 0 sp) (snd (Timer.new 1234 (mk_Duration 1 500) (mk_os (Some 7) true 0))) /\
  it_value sp = it_interval sp.
Proof.
  intro sp.
  assert (Hw : Duration_wf (mk_Duration 1 500)) by (unfold Duration_wf, u64_max; simpl; lia).
  assert (Hin : In (Timer_settime 7 0 sp)
                  (snd (Timer.new 1234 (mk_Duration 1 500) (mk_os (Some 7) true 0))))
    by (vm_compute; right; left; reflexivity).
  split; [exact Hw|]. split; [exact Hin|].
  exact (proj1 (timer_new_equal_delay_and_period 1234 (mk_Duration 1 500)
                  (mk_os (Some 7) true 0) 7 0 sp Hw Hin)).
Defined.

(** C4 fails as stated for an interval of [2^63] seconds: the [as i64]
    cast wraps, and [timer_settime] is passed [tv_sec = -2^63]. *)
Lemma timer_new_huge_interval_wraps :
  ~ (forall tid dur o h f sp,
       Duration_wf dur ->
       In (Timer_settime h f sp) (snd (Timer.new tid dur o)) ->
       it_value sp = it_interval sp /\
       it_interval sp = mk_timespec (secs dur) (nanos dur)).
Proof.
  intro H.
  specialize (H 1234 (mk_Duration (2 ^ 63) 0) (mk_os (Some 7) true 0) 7 0
                (mk_itimerspec (mk_timespec (- 2 ^ 63) 0) (mk_timespec (- 2 ^ 63) 0))).
  destruct H as [_ H].
  - unfold Duration_wf, u64_max; simpl; lia.
  - vm_compute. right. left. reflexivity.
  - simpl in H. injection H. lia.
Qed.

(** ** [TimerThread::join] *)

(** C10.  The first [join] takes the handle out and returns what the
    thread's join reports; a second [join] on the same [TimerThread] finds
    [None] and panics in [unwrap]. *)
Theorem timer_thread_join_single_use : forall tm h,
  let t := TT.mk_TimerThread tm (Some h) in
  fst (TT.join t) = TT.Returns (TT.jh_result h) /\
  TT.thread_handle (snd (TT.join t)) = None /\
  fst (TT.join (snd (TT.join t))) = TT.Panics.
Proof. intros tm h t. subst t. repeat split. Qed.

(** ** Worker count *)







(** ** The identity handoff in [TimerThread::new] *)

Lemma timer_new_create_tid : forall t dur o clk ev,
  In (Timer_create clk ev) (snd (Timer.new t dur o)) -> sigev_notify_thread_id ev = t.
Proof.
  intros t dur o clk ev H. rewrite timer_new_calls in H.
  destruct H as [H|H]; [inversion H; reflexivity|].
  destruct (create_result o) as [h|]; [|contradiction].
  destruct H as [H|H]; [discriminate|].
  destruct (settime_ok o); [contradiction|].
  destruct (negb (is_null h)); [destruct H as [H|H]; [discriminate|contradiction]|contradiction].
Qed.

Lemma handoff_inv_init : forall g, Invariants.handoff_inv g Handoff.init.
Proof.
  intro g. unfold Invariants.handoff_inv; simpl.
  repeat split; intros; try discriminate; try contradiction; try constructor.
Qed.

Ltac inv_solve :=
  solve [ discriminate | reflexivity | assumption | congruence
        | match goal with
          | Hx : ?P, Hf : ?P -> _ |- _ =>
              let y := fresh in pose proof (Hf Hx) as y; simpl in y;
              solve [ tauto | congruence ]
          end ].

Lemma handoff_inv_step : forall g iv pr o s s',
  Handoff.step g iv pr o s s' ->
  Invariants.handoff_inv g s -> Invariants.handoff_inv g s'.
Proof.
  intros g iv pr o s s' Hst Hinv.
  destruct Hst; unfold Invariants.handoff_inv in *;
    destruct Hinv as [HI [HF [HC [HG [HD [HL [HLp [HS [HA [HP HPo]]]]]]]]]].
  1, 2: rewrite (HI H); simpl; repeat split; intros; try constructor; inv_solve.
  all: assert (Hni : Handoff.ctor s <> Handoff.CInit)
         by (intro E; pose proof (HI E) as E'; subst s; simpl in *; discriminate).
  all: try match goal with
       | Hc : Handoff.chan _ = _ :: _ |- _ => rewrite Hc in HF, HC; inversion HF; subst
       end.
  all: simpl; repeat split; intros; simpl in *; try inv_solve.
  all: try solve [eauto].
  all: try (apply Forall_app; split; [assumption | repeat constructor]).
  all: try match goal with
       | Hin : In _ (_ ++ _) |- _ =>
           apply in_app_or in Hin; destruct Hin as [Hin|Hin]; [eauto|];
           apply timer_new_create_tid in Hin; rewrite Hin; eapply HG; eassumption
       end.
  all: try solve [apply HS; congruence].
  all: try solve [apply HC; discriminate].
  all: match goal with Hx : Handoff.ctor _ = Handoff.CGot ?t |- _ => exact (proj2 (HG t Hx)) end.
Qed.

Lemma handoff_reachable_inv : forall g iv pr o s,
  Handoff.reachable g iv pr o s -> Invariants.handoff_inv g s.
Proof.
  intros g iv pr o s Hr. induction Hr.
  - apply handoff_inv_init.
  - eapply handoff_inv_step; eassumption.
Qed.

(** Extends a reachability proof [R] by one step built from its last state. *)
Ltac hstep R k :=
  match type of R with
  | Handoff.reachable _ _ _ _ ?st =>
      let P := k st in
      let R' := fresh "R" in
      pose proof (Handoff.reach_step _ _ _ _ _ _ R P) as R'; clear R
  end.

(** C2.  In every reachable state of [TimerThread::new] with the carrier:
    the constructing side leaves [rx.recv()] only with a value the carrier
    has sent, which is the carrier's own [gettid()]; it calls [Timer::new]
    only after that; and every [timer_create] it issues targets exactly that
    thread id (so a non-zero id when [gettid()] is positive).  The channel is
    created empty at the spawn, so no earlier value can be received. *)
Theorem handoff_timer_bound_to_carrier : forall gettid iv pr o s,
  Handoff.reachable gettid iv pr o s ->
  (forall t, Handoff.ctor s = Handoff.CGot t ->
             t = gettid /\ Handoff.published (Handoff.carrier s) = true) /\
  (forall r, Handoff.ctor s = Handoff.CDone r ->
             Handoff.published (Handoff.carrier s) = true) /\
  (forall clk ev, In (Timer_create clk ev) (Handoff.log s) ->
             sigev_notify_thread_id ev = gettid /\
             Handoff.published (Handoff.carrier s) = true) /\
  (0 < gettid -> forall clk ev, In (Timer_create clk ev) (Handoff.log s) ->
             0 < sigev_notify_thread_id ev).
Proof.
  intros gettid iv pr o s Hr.
  destruct (handoff_reachable_inv _ _ _ _ _ Hr)
    as [_ [_ [_ [HG [HD [HL [HLp _]]]]]]].
  split; [exact HG|]. split; [exact HD|].
  split.
  - intros clk ev Hin. split; [exact (HL _ _ Hin)|].
    apply HLp. intro E. rewrite E in Hin. contradiction.
  - intros Hpos clk ev Hin. rewrite (HL _ _ Hin). exact Hpos.
Qed.

Lemma handoff_timer_bound_to_carrier_witness :
  let d := mk_Duration 0 1000000 in
  let o := mk_os (Some 7) true 0 in
  let s := Handoff.mk_st (Handoff.CDone (fst (Timer.new 1234 d o))) Handoff.KSent
             true [] None None ([] ++ snd (Timer.new 1234 d o)) in
  Handoff.reachable 1234 d 1 o s /\
  (forall clk ev, In (Timer_create clk ev) (Handoff.log s) ->
             sigev_notify_thread_id ev = 1234 /\
             Handoff.published (Handoff.carrier s) = true).
Proof.
  intros d o s.
  assert (R : Handoff.reachable 1234 d 1 o s).
  { pose proof (Handoff.reach_init 1234 d 1 o) as R.
    hstep R ltac:(fun st => constr:(Handoff.step_signals_spawn 1234 d 1 o st eq_refl)).
    hstep R0 ltac:(fun st => constr:(Handoff.step_send 1234 d 1 o st eq_refl)).
    hstep R ltac:(fun st => constr:(Handoff.step_recv 1234 d 1 o st 1234 [] eq_refl eq_refl)).
    hstep R0 ltac:(fun st => constr:(Handoff.step_timer_new 1234 d 1 o st 1234 eq_refl)).
    exact R. }
  split; [exact R|].
  exact (proj1 (proj2 (proj2 (handoff_timer_bound_to_carrier 1234 d 1 o s R)))).
Defined.

(** C7 fails as stated: the carrier's identity is published, and even
    received by the constructing side, while the carrier has not yet bound
    itself to core 0. *)
Lemma carrier_publishes_before_pinning :
  ~ (forall s, Handoff.reachable 1234 (mk_Duration 0 1000000) 1 (mk_os (Some 7) true 0) s ->
       Handoff.published (Handoff.carrier s) = true ->
       Handoff.affinity s = Some [0]).
Proof.
  intro H.
  set (d := mk_Duration 0 1000000) in H. set (o := mk_os (Some 7) true 0) in H.
  pose proof (Handoff.reach_init 1234 d 1 o) as R.
  hstep R ltac:(fun st => constr:(Handoff.step_signals_spawn 1234 d 1 o st eq_refl)).
  hstep R0 ltac:(fun st => constr:(Handoff.step_send 1234 d 1 o st eq_refl)).
  hstep R ltac:(fun st => constr:(Handoff.step_recv 1234 d 1 o st 1234 [] eq_refl eq_refl)).
  specialize (H _ R0 eq_refl). simpl in H. discriminate.
Qed.

(** The carrier is in its FIFO phase or its signal loop only after it has
    set the priority it was given, on top of its binding to core 0. *)
Lemma carrier_fifo_policy : forall g iv pr o s,
  Handoff.reachable g iv pr o s ->
  (Handoff.carrier s = Handoff.KFifo \/ Handoff.carrier s = Handoff.KLoop) ->
  Handoff.policy s = Some pr /\ Handoff.affinity s = Some [0].
Proof.
  intros g iv pr o s Hr. induction Hr as [|s s' Hr IH Hst].
  - simpl. intros [H|H]; discriminate.
  - destruct (handoff_reachable_inv _ _ _ _ _ Hr) as [_ [_ [_ [_ [_ [_ [_ [_ [_ [HK _]]]]]]]]]].
    destruct Hst; simpl in *; intro Hk;
      first [ apply IH; exact Hk
            | destruct Hk as [Hk|Hk]; discriminate
            | split; [reflexivity|apply HK; assumption]
            | apply IH; left; assumption ].
Qed.

(** C7 (amended).  SIGALRM is intercepted by the constructing side
    ([Signals::new]) before the carrier is spawned, and that is the only
    step that installs it; the carrier publishes its identity first, and
    only afterwards binds itself to core 0, then sets its FIFO priority,
    then enters the notification loop. *)
Theorem carrier_order_publish_pin_priority : forall gettid iv pr o s,
  Handoff.reachable gettid iv pr o s ->
  (Handoff.carrier s <> Handoff.KNotSpawned -> Handoff.sig_installed s = true) /\
  (Handoff.affinity s <> None ->
     Handoff.published (Handoff.carrier s) = true /\ Handoff.affinity s = Some [0]) /\
  (Handoff.policy s <> None -> Handoff.affinity s = Some [0]) /\
  (Handoff.carrier s = Handoff.KLoop ->
     Handoff.policy s = Some pr /\ Handoff.affinity s = Some [0]) /\
  (forall s', Handoff.step gettid iv pr o s s' ->
     Handoff.sig_installed s = false -> Handoff.sig_installed s' = true ->
     Handoff.ctor s = Handoff.CInit /\ Handoff.ctor s' = Handoff.CSpawned /\
     Handoff.carrier s' = Handoff.KStart).
Proof.
  intros gettid iv pr o s Hr.
  destruct (handoff_reachable_inv _ _ _ _ _ Hr)
    as [_ [_ [_ [_ [_ [_ [_ [HS [HA [_ HPo]]]]]]]]]].
  split; [exact HS|]. split; [exact HA|]. split; [exact HPo|].
  split; [intro Hk; apply (carrier_fifo_policy gettid iv pr o s Hr); right; exact Hk|].
  intros s' Hst H0 H1.
  destruct Hst; simpl in *; try congruence.
  repeat split; assumption.
Qed.

Lemma carrier_order_publish_pin_priority_witness :
  let d := mk_Duration 0 1000000 in
  let o := mk_os (Some 7) true 0 in
  let s := Handoff.mk_st Handoff.CSpawned Handoff.KLoop true [1234] (Some [0]) (Some 1) [] in
  Handoff.reachable 1234 d 1 o s /\
  Handoff.carrier s = Handoff.KLoop /\ Handoff.policy s = Some 1 /\ Handoff.affinity s = Some [0].
Proof.
  intros d o s.
  assert (R : Handoff.reachable 1234 d 1 o s).
  { pose proof (Handoff.reach_init 1234 d 1 o) as R.
    hstep R ltac:(fun st => constr:(Handoff.step_signals_spawn 1234 d 1 o st eq_refl)).
    hstep R0 ltac:(fun st => constr:(Handoff.step_send 1234 d 1 o st eq_refl)).
    hstep R ltac:(fun st => constr:(Handoff.step_affinity 1234 d 1 o st eq_refl)).
    hstep R0 ltac:(fun st => constr:(Handoff.step_policy 1234 d 1 o st eq_refl)).
    hstep R ltac:(fun st => constr:(Handoff.step_loop 1234 d 1 o st eq_refl)).
    exact R0. }
  split; [exact R|]. split; [reflexivity|].
  exact (proj1 (proj2 (proj2 (proj2 (carrier_order_publish_pin_priority 1234 d 1 o s R))))
           eq_refl).
Defined.

(** ** The shutdown flag *)

Lemma run_inv_step : forall l s s',
  Run.lstep l s s' -> Invariants.run_inv s -> Invariants.run_inv s'.
Proof.
  intros l s s' Hst Hinv. unfold Invariants.run_inv in *.
  destruct Hst; simpl;
    destruct Hinv as [[Hw [Hf Hm]]|[Hw [Hf Hm]]]; try congruence.
  - right. rewrite Hw. repeat split; discriminate.
  - right. repeat split; congruence.
  - right. repeat split; congruence.
  - right. repeat split; congruence.
  - left. auto.
  - right. auto.
  - left. auto.
  - right. auto.
Qed.

Lemma run_reachable_inv : forall n s, Run.reachable n s -> Invariants.run_inv s.
Proof.
  intros n s Hr. induction Hr.
  - left. simpl. auto.
  - eapply run_inv_step; eassumption.
Qed.

(** C6.  In every reachable state of a run, the flag has been stored to at
    most once, always with [true], and only while it was [false]; no step
    turns it back to [false]; the steps of the workers and of the carrier's
    loop only read it. *)
Theorem shutdown_flag_written_once : forall n s,
  Run.reachable n s ->
  (length (Run.writes s) <= 1)%nat /\ Forall (eq true) (Run.writes s) /\
  forall l s', Run.lstep l s s' ->
    (Run.flag s = true -> Run.flag s' = true) /\
    (Run.writes s' <> Run.writes s ->
       Run.flag s = false /\ Run.flag s' = true /\ l = Run.LMain) /\
    (l <> Run.LMain -> Run.flag s' = Run.flag s /\ Run.writes s' = Run.writes s).
Proof.
  intros n s Hr. pose proof (run_reachable_inv n s Hr) as Hinv.
  split; [destruct Hinv as [[Hw _]|[Hw _]]; rewrite Hw; simpl; lia|].
  split; [destruct Hinv as [[Hw _]|[Hw _]]; rewrite Hw; repeat constructor|].
  intros l s' Hst.
  destruct Hst; simpl; repeat split; intros; try congruence;
    destruct Hinv as [[Hw [Hf Hm]]|[Hw [Hf Hm]]]; try congruence.
Qed.

Lemma shutdown_flag_written_once_witness :
  let s1 := Run.mk_st true [true] Run.MJoinCarrier [Run.WSpin 0; Run.WSpin 0] Run.LAwait in
  let s2 := Run.mk_st true [true] Run.MJoinCarrier [Run.WDone; Run.WSpin 0] Run.LAwait in
  Run.reachable 2 s1 /\
  (Run.flag (Run.init 2) = false /\ Run.flag s1 = true /\ Run.LMain = Run.LMain) /\
  (length (Run.writes s1) <= 1)%nat /\ Forall (eq true) (Run.writes s1) /\
  (Run.flag s2 = Run.flag s1 /\ Run.writes s2 = Run.writes s1).
Proof.
  intros s1 s2.
  pose proof (Run.reach_init 2) as R0.
  assert (St : Run.lstep Run.LMain (Run.init 2) s1) by exact (Run.step_store (Run.init 2) eq_refl).
  assert (R1 : Run.reachable 2 s1) by exact (Run.reach_step 2 _ _ _ R0 St).
  assert (Sw : Run.lstep (Run.LWorker 0) s1 s2) by exact (Run.step_worker s1 0 0 eq_refl).
  split; [exact R1|].
  split; [exact (proj1 (proj2 (proj2 (proj2 (shutdown_flag_written_once 2 (Run.init 2) R0))
                                 _ _ St)) ltac:(discriminate))|].
  destruct (shutdown_flag_written_once 2 s1 R1) as [Hl [Hf Hs]].
  split; [exact Hl|]. split; [exact Hf|].
  exact (proj2 (proj2 (Hs _ _ Sw)) ltac:(discriminate)).
Defined.

(** ** The end of [main] *)

Lemma join_workers_spec : forall threads i,
  exists k,
    fst (Main.join_workers i threads) = map Main.EJoinWorker (seq i k) /\
    (if Main.all_finished threads
     then k = length threads /\ snd (Main.join_workers i threads) = false
     else snd (Main.join_workers i threads) = true).
Proof.
  induction threads as [|h r IH]; intros i.
  - exists O. simpl. auto.
  - simpl. destruct (TT.jh_result h).
    + destruct (IH (S i)) as [k [Hf Hs]].
      destruct (Main.join_workers (S i) r) as [evs p]. simpl in *.
      exists (S k). simpl. rewrite Hf. split; [reflexivity|].
      destruct (Main.all_finished r); [destruct Hs; split; congruence|exact Hs].
    + exists 1%nat. simpl. auto.
Qed.

Lemma not_join_worker_in_os : forall w l, ~ In (Main.EJoinWorker w) (map Main.EOs l).
Proof. intros w l H. apply in_map_iff in H. destruct H as [? [H _]]. discriminate. Qed.

Lemma join_workers_first_panic : forall threads i,
  exists k,
    Main.join_workers i threads =
      (map Main.EJoinWorker (seq i k), negb (Main.all_finished threads)) /\
    (forall j hj, (S j < k)%nat -> nth_error threads j = Some hj ->
                  TT.jh_result hj = TT.Finished) /\
    (if Main.all_finished threads then k = length threads
     else (1 <= k)%nat /\
          exists hk, nth_error threads (k - 1) = Some hk /\ TT.jh_result hk = TT.Panicked).
Proof.
  induction threads as [|h r IH]; intros i.
  - exists O. split; [reflexivity|]. split; [intros; lia|reflexivity].
  - assert (Ea : Main.all_finished (h :: r) =
                 (match TT.jh_result h with TT.Finished => true | TT.Panicked => false end
                  && Main.all_finished r)) by reflexivity.
    change (Main.join_workers i (h :: r)) with
      (match TT.jh_result h with
       | TT.Finished => let '(evs, p) := Main.join_workers (S i) r in
                        (Main.EJoinWorker i :: evs, p)
       | TT.Panicked => ([Main.EJoinWorker i], true)
       end).
    rewrite Ea. destruct (TT.jh_result h) eqn:Eh.
    + rewrite Bool.andb_true_l.
      destruct (IH (S i)) as [k [Hj [Hp Hc]]]. rewrite Hj. exists (S k).
      split; [reflexivity|]. split.
      * intros [|j] hj Hjk Hn; simpl in Hn; [injection Hn as <-; exact Eh|].
        apply (Hp j); [lia|exact Hn].
      * destruct (Main.all_finished r); [simpl; lia|].
        destruct Hc as [Hk [hk [Hn Hr]]]. split; [lia|]. exists hk.
        destruct k as [|k]; [lia|]. simpl in Hn |- *. rewrite Nat.sub_0_r in Hn. auto.
    + rewrite Bool.andb_false_l. exists 1%nat.
      split; [reflexivity|]. split; [intros; lia|]. split; [lia|]. exists h. auto.
Qed.

(** C8 (amended).  After the sleep, [main] stores the flag, joins the
    carrier, then joins the workers in spawn order, with nothing in
    between, and then only drops its [TimerThread].  When the carrier's
    join reports a panic, [main] panics at once and joins no worker.
    Otherwise the workers joined are those up to and including the first
    one whose join reports a panic, after which [main] panics; when no join
    reports a panic, every worker is joined and [main] does not panic. *)
Theorem shutdown_join_order : forall tm h threads o,
  exists k,
    Main.shutdown (TT.mk_TimerThread tm (Some h)) threads o =
      [Main.ESleep; Main.EStore; Main.EJoinCarrier] ++
      map Main.EJoinWorker (seq 0 k) ++
      (if Main.all_finished (h :: threads) then [] else [Main.EPanic]) ++
      map Main.EOs (snd (TT.drop (TT.mk_TimerThread tm None) o)) /\
    match TT.jh_result h with
    | TT.Panicked => k = O
    | TT.Finished =>
        (forall j hj, (S j < k)%nat -> nth_error threads j = Some hj ->
                      TT.jh_result hj = TT.Finished) /\
        (if Main.all_finished threads then k = length threads
         else (1 <= k)%nat /\
              exists hk, nth_error threads (k - 1) = Some hk /\ TT.jh_result hk = TT.Panicked)
    end.
Proof.
  intros tm h threads o.
  assert (Ea : Main.all_finished (h :: threads) =
               (match TT.jh_result h with TT.Finished => true | TT.Panicked => false end
                && Main.all_finished threads)) by reflexivity.
  unfold Main.shutdown. rewrite Ea. unfold TT.join. cbn [TT.thread_handle TT.timer].
  destruct (TT.jh_result h) eqn:Eh.
  - destruct (join_workers_first_panic threads 0) as [k [Hj [Hp Hc]]].
    rewrite Hj. exists k. split; [|split; assumption].
    rewrite Bool.andb_true_l. destruct (Main.all_finished threads); reflexivity.
  - exists O. split; reflexivity.
Qed.

(** C8 fails as stated: when the carrier thread panicked (its
    [set_self_policy] unwrap fails without the privilege for SCHED_FIFO),
    [timer.join().unwrap()] panics and the spawned worker is never joined. *)
Lemma shutdown_skips_workers_after_panic :
  ~ In (Main.EJoinWorker 0)
      (Main.shutdown (TT.mk_TimerThread (Some (Timer.mk_Timer (Timer.mk_TimerId 7)))
                        (Some (TT.mk_JoinHandle TT.Panicked)))
         [TT.mk_JoinHandle TT.Finished] (mk_os (Some 7) true 0)).
Proof. vm_compute. intuition discriminate. Qed.

Lemma shutdown_split : forall tm h threads o,
  exists A L,
    Main.shutdown (TT.mk_TimerThread tm (Some h)) threads o = A ++ map Main.EOs L /\
    forallb (fun e => negb (Main.is_os e)) A = true.
Proof.
  intros tm h threads o. unfold Main.shutdown. simpl.
  destruct (TT.jh_result h); simpl.
  - destruct (join_workers_spec threads 0) as [k [Hf _]].
    destruct (Main.join_workers 0 threads) as [evs p]. simpl in *. subst evs.
    exists ([Main.ESleep; Main.EStore; Main.EJoinCarrier] ++ map Main.EJoinWorker (seq 0 k)
            ++ (if p then [Main.EPanic] else [])).
    exists (snd (TT.drop (TT.mk_TimerThread tm None) o)).
    split; [simpl; rewrite <- !app_assoc; reflexivity|].
    simpl. rewrite forallb_app. apply andb_true_intro. split.
    + clear. generalize O. induction k; intro i; simpl; auto.
    + destruct p; reflexivity.
  - exists [Main.ESleep; Main.EStore; Main.EJoinCarrier; Main.EPanic].
    exists (snd (TT.drop (TT.mk_TimerThread tm None) o)).
    split; reflexivity.
Qed.

(** C9 (amended).  The OS timer is deleted only when [main]'s
    [TimerThread] is dropped, at the end of [main] or while it unwinds:
    every [timer_delete] comes after the carrier has been joined and after
    every worker join [main] performed.  The timer thus outlives the
    carrier thread. *)
Theorem timer_deleted_only_after_joins : forall tm h threads o i x j,
  let tr := Main.shutdown (TT.mk_TimerThread tm (Some h)) threads o in
  nth_error tr i = Some (Main.EOs (Timer_delete x)) ->
  (nth_error tr j = Some Main.EJoinCarrier \/
   exists w, nth_error tr j = Some (Main.EJoinWorker w)) ->
  (j < i)%nat.
Proof.
  intros tm h threads o i x j tr Hi Hj. subst tr.
  destruct (shutdown_split tm h threads o) as [A [L [E HA]]].
  rewrite E in Hi, Hj.
  assert (Hle : (length A <= i)%nat).
  { destruct (Nat.lt_ge_cases i (length A)) as [Hlt|Hge]; [|exact Hge].
    rewrite nth_error_app1 in Hi by exact Hlt.
    apply nth_error_In in Hi. rewrite forallb_forall in HA.
    specialize (HA _ Hi). discriminate. }
  destruct (Nat.lt_ge_cases j (length A)) as [Hlt|Hge]; [lia|].
  exfalso. rewrite nth_error_app2 in Hj by exact Hge.
  destruct Hj as [Hj|[w Hj]]; apply nth_error_In in Hj;
    apply in_map_iff in Hj; destruct Hj as [? [Hj _]]; discriminate.
Qed.

Lemma timer_deleted_only_after_joins_witness :
  let tr := Main.shutdown (TT.mk_TimerThread (Some (Timer.mk_Timer (Timer.mk_TimerId 7)))
                             (Some (TT.mk_JoinHandle TT.Finished))) [] (mk_os (Some 7) true 0) in
  nth_error tr 3 = Some (Main.EOs (Timer_delete 7)) /\
  nth_error tr 2 = Some Main.EJoinCarrier /\ (2 < 3)%nat.
Proof.
  intro tr. split; [reflexivity|]. split; [reflexivity|].
  exact (timer_deleted_only_after_joins (Some (Timer.mk_Timer (Timer.mk_TimerId 7)))
           (TT.mk_JoinHandle TT.Finished) [] (mk_os (Some 7) true 0) 3 7 2
           eq_refl (or_introl eq_refl)).
Defined.

(** C9 fails as stated: the timer is deleted after the carrier thread has
    been joined. *)
Lemma timer_outlives_carrier :
  ~ (forall tm h threads o i x j,
       let tr := Main.shutdown (TT.mk_TimerThread tm (Some h)) threads o in
       nth_error tr i = Some (Main.EOs (Timer_delete x)) ->
       nth_error tr j = Some Main.EJoinCarrier ->
       (i < j)%nat).
Proof.
  intro H.
  specialize (H (Some (Timer.mk_Timer (Timer.mk_TimerId 7))) (TT.mk_JoinHandle TT.Finished)
                [] (mk_os (Some 7) true 0) 3%nat 7 2%nat eq_refl eq_refl).
  lia.
Qed.

(** A concrete run of [Timer::new]: 1 ms interval, handle 7. *)
Example timer_new_ok :
  Timer.new 1234 (mk_Duration 0 1000000) (mk_os (Some 7) true 0)
  = (Timer.Ok (Timer.mk_Timer (Timer.mk_TimerId 7)),
     [Timer_create CLOCK_MONOTONIC (mk_sigevent SIGEV_THREAD_ID SIGALRM 1234);
      Timer_settime 7 0 (mk_itimerspec (mk_timespec 0 1000000) (mk_timespec 0 1000000))]).
Proof. reflexivity. Qed.

(** * Further properties of the code *)

(** ** The three outcomes of [Timer::new] *)

(** When [timer_create] fails, [Timer::new] returns [Err] carrying [errno],
    and makes no other OS call: the timer is neither armed nor deleted. *)
Theorem timer_new_create_failure : forall tid dur o,
  create_result o = None ->
  Timer.new tid dur o =
  (Timer.Err (os_errno o),
   [Timer_create CLOCK_MONOTONIC (mk_sigevent SIGEV_THREAD_ID SIGALRM tid)]).
Proof.
  intros tid dur o Hc.
  rewrite (surjective_pairing (Timer.new tid dur o)), timer_new_calls, timer_new_result, Hc.
  reflexivity.
Qed.

Lemma timer_new_create_failure_witness :
  create_result (mk_os None true 22) = None /\
  fst (Timer.new 1234 (mk_Duration 0 1000000) (mk_os None true 22)) = Timer.Err 22.
Proof.
  split; [reflexivity|].
  rewrite (timer_new_create_failure 1234 (mk_Duration 0 1000000) (mk_os None true 22) eq_refl).
  reflexivity.
Defined.

(** When [timer_settime] fails on a created, non-null timer, [Timer::new]
    returns [Err] carrying [errno] and deletes that very timer before
    returning: create, arm, delete, nothing else. *)
Theorem timer_new_arming_failure_releases : forall tid dur o h,
  create_result o = Some h -> settime_ok o = false -> h <> 0 ->
  Timer.new tid dur o =
  (Timer.Err (os_errno o),
   [Timer_create CLOCK_MONOTONIC (mk_sigevent SIGEV_THREAD_ID SIGALRM tid);
    Timer_settime h 0
      (mk_itimerspec (mk_timespec (as_i64 (secs dur)) (nanos dur))
                     (mk_timespec (as_i64 (secs dur)) (nanos dur)));
    Timer_delete h]).
Proof.
  intros tid dur o h Hc Hs Hn.
  rewrite (surjective_pairing (Timer.new tid dur o)), timer_new_calls, timer_new_result, Hc, Hs.
  assert (is_null h = false) as E by (unfold is_null; apply Z.eqb_neq; exact Hn).
  rewrite E. reflexivity.
Qed.

Lemma timer_new_arming_failure_releases_witness :
  Timer.deletes (snd (Timer.new 1234 (mk_Duration 0 1000000) (mk_os (Some 7) false 22))) = 1%nat.
Proof.
  rewrite (timer_new_arming_failure_releases 1234 (mk_Duration 0 1000000)
             (mk_os (Some 7) false 22) 7 eq_refl eq_refl ltac:(discriminate)).
  reflexivity.
Defined.

(** When both calls succeed, [Timer::new] arms, as a relative timer
    (flags 0), the handle the OS returned, deletes nothing, and returns that
    handle; dropping the returned [Timer] deletes exactly that handle when
    it is not null. *)
Theorem timer_new_success_owns_handle : forall tid dur o h,
  create_result o = Some h -> settime_ok o = true ->
  fst (Timer.new tid dur o) = Timer.Ok (Timer.mk_Timer (Timer.mk_TimerId h)) /\
  snd (Timer.new tid dur o) =
  [Timer_create CLOCK_MONOTONIC (mk_sigevent SIGEV_THREAD_ID SIGALRM tid);
   Timer_settime h 0
     (mk_itimerspec (mk_timespec (as_i64 (secs dur)) (nanos dur))
                    (mk_timespec (as_i64 (secs dur)) (nanos dur)))] /\
  snd (Timer.Timer_drop (Timer.mk_Timer (Timer.mk_TimerId h)) o) =
  (if is_null h then [] else [Timer_delete h]).
Proof.
  intros tid dur o h Hc Hs.
  rewrite timer_new_calls, timer_new_result, Hc, Hs.
  split; [reflexivity|]. split; [reflexivity|].
  unfold Timer.Timer_drop, Timer.TimerId_drop, timer_delete, emit, bind, ret; simpl.
  destruct (is_null h); reflexivity.
Qed.

Lemma timer_new_success_owns_handle_witness :
  snd (Timer.Timer_drop (Timer.mk_Timer (Timer.mk_TimerId 7)) (mk_os (Some 7) true 0))
  = [Timer_delete 7].
Proof.
  exact (proj2 (proj2 (timer_new_success_owns_handle 1234 (mk_Duration 0 1000000)
                         (mk_os (Some 7) true 0) 7 eq_refl eq_refl))).
Defined.

(** ** Core masks of the workers *)

(** Every worker [run_worker_threads] starts, whether the call returns or a
    later spawn panics, pins itself to the cores
    [1 .. core_count - 1]: never core 0, which the carrier thread takes with
    its mask [[0]], and never a core beyond the count. *)
Theorem worker_masks_exclude_carrier_core : forall p cap core tpc w,
  In w (Workers.started (Workers.run_worker_threads p cap core tpc)) ->
  Workers.core_mask w = map Z.of_nat (seq 1 (Z.to_nat core - 1)) /\
  ~ In 0 (Workers.core_mask w) /\
  (forall c, In c (Workers.core_mask w) -> 1 <= c < core).
Proof.
  intros p cap core tpc w Hw.
  assert (Hs : forall n, In w (Workers.spawn_n core n) -> w = Workers.spawn_worker core).
  { intros n Hn. apply in_map_iff in Hn. destruct Hn as [? [<- _]]. reflexivity. }
  assert (Hw' : w = Workers.spawn_worker core).
  { unfold Workers.run_worker_threads in Hw.
    destruct (Workers.usize_sub p core 1) as [c|]; [|contradiction].
    destruct (Workers.usize_mul p c tpc) as [n|]; [|contradiction].
    destruct (n <=? cap); eapply Hs; exact Hw. }
  subst w. unfold Workers.spawn_worker; simpl.
  assert (Hc : forall c, In c (map Z.of_nat (seq 1 (Z.to_nat core - 1))) -> 1 <= c < core).
  { intros c' Hc'. apply in_map_iff in Hc'. destruct Hc' as [k [<- Hx]].
    apply in_seq in Hx.
    destruct core as [|q|q]; simpl in Hx; lia. }
  split; [reflexivity|]. split; [intro H0; apply Hc in H0; lia|exact Hc].
Qed.

Lemma worker_masks_exclude_carrier_core_witness :
  Workers.started (Workers.run_worker_threads Workers.Debug 32768 4 1) =
    [Workers.mk_Worker [1; 2; 3]; Workers.mk_Worker [1; 2; 3]; Workers.mk_Worker [1; 2; 3]] /\
  ~ In 0 [1; 2; 3].
Proof.
  split; [reflexivity|].
  exact (proj1 (proj2 (worker_masks_exclude_carrier_core Workers.Debug 32768 4 1
    (Workers.mk_Worker [1; 2; 3]) (or_introl eq_refl)))).
Defined.

(** ** What the flag tells about the threads of a run *)

Lemma set_nth_other : forall {A} (l : list A) i j x,
  i <> j -> nth_error (Run.set_nth l i x) j = nth_error l j.
Proof.
  intros A l. induction l as [|a l IH]; intros i j x Hij; simpl; [reflexivity|].
  destruct i, j; simpl; try reflexivity; [congruence|]. apply IH. congruence.
Qed.

Lemma set_nth_same : forall {A} (l : list A) i x y,
  nth_error l i = Some y -> nth_error (Run.set_nth l i x) i = Some x.
Proof.
  intros A l. induction l as [|a l IH]; intros i x y H; destruct i; simpl in *;
    try discriminate; [reflexivity|]. eapply IH; eassumption.
Qed.

Lemma set_nth_length : forall {A} (l : list A) i x,
  length (Run.set_nth l i x) = length l.
Proof.
  intros A l. induction l as [|a l IH]; intros i x; destruct i; simpl; auto.
Qed.

Lemma run_progress_step : forall l s s',
  Run.lstep l s s' -> Invariants.run_progress s -> Invariants.run_progress s'.
Proof.
  intros l s s' Hst [P1 [P2 [P3 P4]]]. unfold Invariants.run_progress.
  destruct Hst as [s Hm|s Hm Hc|s n Hm Hn|s n Hm Hn|s i d Hi|s Hc]; simpl.
  - split; [|split; [|split]]; intros; try reflexivity; discriminate.
  - split; [|split; [|split]]; auto.
    + intros k Hk. injection Hk as <-. split; [assumption|]. intros; lia.
    + intros; discriminate.
  - split; [|split; [|split]]; auto.
    + intros k Hk. injection Hk as <-. destruct (P3 n Hm) as [Hc Hw]. split; [assumption|].
      intros j Hj. destruct (Nat.eq_dec j n) as [->|Hne]; [assumption|apply Hw; lia].
    + intros; discriminate.
  - split; [|split; [|split]]; auto.
    + intros; discriminate.
    + intros _. destruct (P3 n Hm) as [Hc Hw]. split; [assumption|].
      apply Forall_forall. intros w Hw'. apply In_nth_error in Hw'. destruct Hw' as [j Hj].
      assert (Hjn : (j < n)%nat) by (subst n; apply nth_error_Some; congruence).
      rewrite (Hw j Hjn) in Hj. congruence.
  - split; [|split; [|split]].
    + intros j Hj. destruct (Nat.eq_dec i j) as [<-|Hne].
      * rewrite (set_nth_same _ _ _ _ Hi) in Hj. destruct (Run.flag s); [reflexivity|discriminate].
      * rewrite set_nth_other in Hj by assumption. eauto.
    + assumption.
    + intros k Hk. destruct (P3 k Hk) as [Hc Hw]. split; [assumption|].
      intros j Hj. destruct (Nat.eq_dec i j) as [<-|Hne].
      * rewrite (Hw i Hj) in Hi. discriminate.
      * rewrite set_nth_other by assumption. auto.
    + intros Hx. destruct (P4 Hx) as [_ HF]. apply nth_error_In in Hi.
      rewrite Forall_forall in HF. specialize (HF _ Hi). discriminate.
  - split; [|split; [|split]]; auto.
    + intros H. destruct (Run.flag s); [reflexivity|discriminate].
    + intros k Hk. destruct (P3 k Hk). congruence.
    + intros Hx. destruct (P4 Hx). congruence.
Qed.

Lemma run_reachable_progress : forall n s,
  Run.reachable n s -> Invariants.run_progress s.
Proof.
  intros n s Hr. induction Hr as [|l s s' Hr IH Hst].
  - unfold Invariants.run_progress, Run.init; simpl. repeat split; try discriminate.
    intros i Hi. apply nth_error_In, repeat_spec in Hi. discriminate.
  - eapply run_progress_step; eassumption.
Qed.

(** The flag is only ever observed set: no worker leaves its spin loop, and
    the carrier does not return from its loop, before [main] has stored
    [true]. *)
Theorem run_stops_only_after_store : forall n s,
  Run.reachable n s ->
  (forall i, nth_error (Run.workers s) i = Some Run.WDone -> Run.flag s = true) /\
  (Run.carrier s = Run.LReturned -> Run.flag s = true).
Proof.
  intros n s Hr. destruct (run_reachable_progress n s Hr) as [P1 [P2 _]]. auto.
Qed.

Lemma run_stops_only_after_store_witness :
  exists s, Run.reachable 1 s /\ nth_error (Run.workers s) 0 = Some Run.WDone /\ Run.flag s = true.
Proof.
  pose proof (Run.reach_init 1) as R0.
  pose proof (Run.reach_step 1 _ _ _ R0 (Run.step_store (Run.init 1) eq_refl)) as R1.
  pose proof (Run.reach_step 1 _ _ _ R1
                (Run.step_worker (Run.mk_st true [true] Run.MJoinCarrier [Run.WSpin 0] Run.LAwait)
                   0 0 eq_refl)) as R2.
  eexists. split; [exact R2|]. split; [reflexivity|].
  exact (proj1 (run_stops_only_after_store 1 _ R2) 0%nat eq_refl).
Defined.

(** When [main] reaches its end, the carrier thread has returned and every
    worker has left its loop: all of them were joined. *)
Theorem run_exit_all_joined : forall n s,
  Run.reachable n s -> Run.main s = Run.MExit ->
  Run.carrier s = Run.LReturned /\ Forall (eq Run.WDone) (Run.workers s) /\
  length (Run.workers s) = n.
Proof.
  intros n s Hr Hm. destruct (run_reachable_progress n s Hr) as [_ [_ [_ P4]]].
  destruct (P4 Hm) as [Hc HF]. split; [assumption|split; [assumption|]].
  clear -Hr. induction Hr as [|l s s' Hr IH Hst]; [apply repeat_length|].
  destruct Hst; simpl in *; try rewrite set_nth_length; assumption.
Qed.

Lemma run_exit_all_joined_witness :
  exists s, Run.reachable 1 s /\ Run.main s = Run.MExit /\
            Run.workers s = [Run.WDone] /\ Forall (eq Run.WDone) (Run.workers s).
Proof.
  pose proof (Run.reach_init 1) as R0.
  pose proof (Run.reach_step 1 _ _ _ R0 (Run.step_store (Run.init 1) eq_refl)) as R1.
  pose proof (Run.reach_step 1 _ _ _ R1
    (Run.step_worker (Run.mk_st true [true] Run.MJoinCarrier [Run.WSpin 0] Run.LAwait)
       0 0 eq_refl)) as R2.
  pose proof (Run.reach_step 1 _ _ _ R2
    (Run.step_signal (Run.mk_st true [true] Run.MJoinCarrier [Run.WDone] Run.LAwait)
       eq_refl)) as R3.
  pose proof (Run.reach_step 1 _ _ _ R3
    (Run.step_join_carrier (Run.mk_st true [true] Run.MJoinCarrier [Run.WDone] Run.LReturned)
       eq_refl eq_refl)) as R4.
  pose proof (Run.reach_step 1 _ _ _ R4
    (Run.step_join_worker (Run.mk_st true [true] (Run.MJoinWorkers 0) [Run.WDone] Run.LReturned)
       0 eq_refl eq_refl)) as R5.
  pose proof (Run.reach_step 1 _ _ _ R5
    (Run.step_exit (Run.mk_st true [true] (Run.MJoinWorkers 1) [Run.WDone] Run.LReturned) 1
       eq_refl eq_refl)) as R6.
  eexists. split; [exact R6|]. split; [reflexivity|]. split; [reflexivity|].
  exact (proj1 (proj2 (run_exit_all_joined 1 _ R6 eq_refl))).
Defined.

(** ** The phases of [TimerThread::new] *)

Ltac shape_intros :=
  repeat match goal with
         | |- _ /\ _ => split
         | |- _ -> _ => intro
         | |- forall _, _ => intro
         end.

Lemma handoff_shape_init : forall g iv o, Invariants.handoff_shape g iv o Handoff.init.
Proof. intros g iv o. unfold Invariants.handoff_shape; simpl. shape_intros; discriminate. Qed.

Lemma handoff_shape_step : forall g iv pr o s s',
  Handoff.reachable g iv pr o s -> Handoff.step g iv pr o s s' ->
  Invariants.handoff_shape g iv o s -> Invariants.handoff_shape g iv o s'.
Proof.
  intros g iv pr o s s' Hr Hst [S1 [S2 [S3 S4]]].
  destruct (handoff_reachable_inv _ _ _ _ _ Hr) as [HI [_ [_ [HG [HD _]]]]].
  unfold Invariants.handoff_shape.
  destruct Hst as [s Hc|s Hc|s Hk|s t rest Hc Hch|s t Hc|s Hk|s Hk|s Hk|s Hk|s Hk];
    simpl in *.
  6-10: destruct (Handoff.ctor s) as [| | |t|r] eqn:Ec;
    [rewrite (HI eq_refl) in Hk; discriminate
    |destruct (S1 eq_refl) as [Hk' _]; congruence
    |destruct (S2 eq_refl) as [Hl [[Hk' _]|[_ Hch]]]; [congruence|];
       shape_intros; try discriminate; [assumption|right; split; [reflexivity|assumption]]
    |pose proof (S3 t eq_refl); shape_intros; try discriminate; tauto
    |pose proof (S4 r eq_refl); shape_intros; try discriminate; injection H0 as <-; tauto].
  - rewrite (HI Hc); simpl. shape_intros; try discriminate; reflexivity.
  - rewrite (HI Hc); simpl. shape_intros; try discriminate; [reflexivity|left; auto].
  - destruct (Handoff.ctor s) as [| | |t|r] eqn:Ec.
    + rewrite (HI eq_refl) in Hk. discriminate.
    + destruct (S1 eq_refl) as [Hk' _]. congruence.
    + destruct (S2 eq_refl) as [Hl [[_ Hch]|[Hp _]]]; [|rewrite Hk in Hp; discriminate].
      shape_intros; try discriminate. assumption. right. rewrite Hch. auto.
    + destruct (HG t eq_refl) as [_ Hp]. rewrite Hk in Hp. discriminate.
    + specialize (HD r eq_refl). rewrite Hk in HD. discriminate.
  - destruct (S2 Hc) as [Hl [[_ Hch']|[_ Hch']]]; rewrite Hch in Hch'; [discriminate|].
    injection Hch' as -> ->.
    shape_intros; try discriminate. assumption. reflexivity.
  - destruct (S3 t Hc) as [Hl Hch]. destruct (HG t Hc) as [-> _].
    shape_intros; try discriminate; injection H as <-.
    assumption. reflexivity. rewrite Hl. reflexivity.
Qed.

Lemma handoff_reachable_shape : forall g iv pr o s,
  Handoff.reachable g iv pr o s -> Invariants.handoff_shape g iv o s.
Proof.
  intros g iv pr o s Hr. induction Hr as [|s s' Hr IH Hst].
  - apply handoff_shape_init.
  - eapply handoff_shape_step; eassumption.
Qed.

(** When [TimerThread::new] has called [Timer::new], it did so exactly once,
    with the carrier's thread id, and that call is the only source of OS
    timer calls so far: the result and the calls are those of
    [Timer::new gettid interval]. *)
Theorem handoff_done_is_one_timer_new : forall g iv pr o s r,
  Handoff.reachable g iv pr o s -> Handoff.ctor s = Handoff.CDone r ->
  r = fst (Timer.new g iv o) /\ Handoff.log s = snd (Timer.new g iv o).
Proof.
  intros g iv pr o s r Hr Hc.
  destruct (handoff_reachable_shape g iv pr o s Hr) as [_ [_ [_ S4]]].
  destruct (S4 r Hc) as [_ H]. exact H.
Qed.

Lemma handoff_done_is_one_timer_new_witness :
  let d := mk_Duration 0 1000000 in
  let o := mk_os (Some 7) true 0 in
  let s := Handoff.mk_st (Handoff.CDone (fst (Timer.new 1234 d o))) Handoff.KSent
             true [] None None ([] ++ snd (Timer.new 1234 d o)) in
  Handoff.reachable 1234 d 1 o s /\ Handoff.log s = snd (Timer.new 1234 d o).
Proof.
  intros d o s.
  assert (R : Handoff.reachable 1234 d 1 o s).
  { pose proof (Handoff.reach_init 1234 d 1 o) as R.
    hstep R ltac:(fun st => constr:(Handoff.step_signals_spawn 1234 d 1 o st eq_refl)).
    hstep R0 ltac:(fun st => constr:(Handoff.step_send 1234 d 1 o st eq_refl)).
    hstep R ltac:(fun st => constr:(Handoff.step_recv 1234 d 1 o st 1234 [] eq_refl eq_refl)).
    hstep R0 ltac:(fun st => constr:(Handoff.step_timer_new 1234 d 1 o st 1234 eq_refl)).
    exact R. }
  split; [exact R|].
  exact (proj2 (handoff_done_is_one_timer_new 1234 d 1 o s _ R eq_refl)).
Defined.

(** When [Signals::new] fails, [TimerThread::new] returns its error before
    spawning the carrier: no thread, no value in the channel, and no OS
    timer call. *)
Theorem handoff_signals_failure_clean : forall g iv pr o s,
  Handoff.reachable g iv pr o s -> Handoff.ctor s = Handoff.CFailed ->
  Handoff.carrier s = Handoff.KNotSpawned /\ Handoff.log s = [] /\ Handoff.chan s = [].
Proof.
  intros g iv pr o s Hr Hc.
  destruct (handoff_reachable_shape g iv pr o s Hr) as [S1 _]. exact (S1 Hc).
Qed.

Lemma handoff_signals_failure_clean_witness :
  let d := mk_Duration 0 1000000 in
  let o := mk_os (Some 7) true 0 in
  let s := Handoff.mk_st Handoff.CFailed Handoff.KNotSpawned false [] None None [] in
  Handoff.reachable 1234 d 1 o s /\ Handoff.log s = [].
Proof.
  intros d o s.
  assert (R : Handoff.reachable 1234 d 1 o s).
  { pose proof (Handoff.reach_init 1234 d 1 o) as R.
    hstep R ltac:(fun st => constr:(Handoff.step_signals_fail 1234 d 1 o st eq_refl)).
    exact R0. }
  split; [exact R|].
  exact (proj1 (proj2 (handoff_signals_failure_clean 1234 d 1 o s R eq_refl))).
Defined.

(** Once the carrier is spawned, the constructing thread cannot stay blocked
    in [rx.recv()]: whatever the carrier has done so far, some continuation
    of the run delivers the thread id and finishes [Timer::new] with it. *)
Theorem handoff_spawned_completes : forall g iv pr o s,
  Handoff.reachable g iv pr o s -> Handoff.ctor s = Handoff.CSpawned ->
  exists s', Reach.handoff_steps g iv pr o s s' /\
             Handoff.ctor s' = Handoff.CDone (fst (Timer.new g iv o)) /\
             Handoff.log s' = snd (Timer.new g iv o).
Proof.
  intros g iv pr o s Hr Hc.
  destruct (handoff_reachable_shape g iv pr o s Hr) as [_ [S2 _]].
  destruct (S2 Hc) as [Hl [[Hk Hch]|[_ Hch]]];
    destruct s as [c k si ch af po lg]; simpl in *; subst c lg.
  - subst k ch. eexists. split; [|split].
    + eapply Reach.hs_step; [apply Handoff.step_send; reflexivity|].
      eapply Reach.hs_step; [apply (Handoff.step_recv _ _ _ _ _ g []); reflexivity|].
      eapply Reach.hs_step; [apply (Handoff.step_timer_new _ _ _ _ _ g); reflexivity|].
      apply Reach.hs_refl.
    + reflexivity.
    + reflexivity.
  - subst ch. eexists. split; [|split].
    + eapply Reach.hs_step; [apply (Handoff.step_recv _ _ _ _ _ g []); reflexivity|].
      eapply Reach.hs_step; [apply (Handoff.step_timer_new _ _ _ _ _ g); reflexivity|].
      apply Reach.hs_refl.
    + reflexivity.
    + reflexivity.
Qed.

Lemma handoff_spawned_completes_witness :
  let d := mk_Duration 0 1000000 in
  let o := mk_os (Some 7) true 0 in
  let s := Handoff.mk_st Handoff.CSpawned Handoff.KStart true [] None None [] in
  Handoff.reachable 1234 d 1 o s /\
  exists s', Reach.handoff_steps 1234 d 1 o s s' /\
             Handoff.ctor s' = Handoff.CDone (fst (Timer.new 1234 d o)).
Proof.
  intros d o s.
  assert (R : Handoff.reachable 1234 d 1 o s).
  { pose proof (Handoff.reach_init 1234 d 1 o) as R.
    hstep R ltac:(fun st => constr:(Handoff.step_signals_spawn 1234 d 1 o st eq_refl)).
    exact R0. }
  split; [exact R|].
  destruct (handoff_spawned_completes 1234 d 1 o s R eq_refl) as [s' [H1 [H2 _]]].
  exists s'. split; assumption.
Defined.

(** When [TimerThread::new] fails in [Timer::new] after the OS created a
    non-null timer, that timer has already been deleted before the error
    is returned. *)
Theorem handoff_error_releases_timer : forall g iv pr o s e h,
  Handoff.reachable g iv pr o s -> Handoff.ctor s = Handoff.CDone (Timer.Err e) ->
  create_result o = Some h -> h <> 0 ->
  In (Timer_delete h) (Handoff.log s).
Proof.
  intros g iv pr o s e h Hr Hc Hcr Hh.
  destruct (handoff_reachable_shape g iv pr o s Hr) as [_ [_ [_ S4]]].
  destruct (S4 _ Hc) as [_ [Hres Hl]]. rewrite Hl, timer_new_calls, Hcr.
  rewrite timer_new_result, Hcr in Hres.
  destruct (settime_ok o); [discriminate|].
  assert (is_null h = false) as E by (unfold is_null; apply Z.eqb_neq; exact Hh).
  rewrite E. simpl. auto.
Qed.

Lemma handoff_error_releases_timer_witness :
  let d := mk_Duration 0 1000000 in
  let o := mk_os (Some 7) false 22 in
  let s := Handoff.mk_st (Handoff.CDone (fst (Timer.new 1234 d o))) Handoff.KSent
             true [] None None ([] ++ snd (Timer.new 1234 d o)) in
  Handoff.reachable 1234 d 1 o s /\ In (Timer_delete 7) (Handoff.log s).
Proof.
  intros d o s.
  assert (R : Handoff.reachable 1234 d 1 o s).
  { pose proof (Handoff.reach_init 1234 d 1 o) as R.
    hstep R ltac:(fun st => constr:(Handoff.step_signals_spawn 1234 d 1 o st eq_refl)).
    hstep R0 ltac:(fun st => constr:(Handoff.step_send 1234 d 1 o st eq_refl)).
    hstep R ltac:(fun st => constr:(Handoff.step_recv 1234 d 1 o st 1234 [] eq_refl eq_refl)).
    hstep R0 ltac:(fun st => constr:(Handoff.step_timer_new 1234 d 1 o st 1234 eq_refl)).
    exact R. }
  split; [exact R|].
  exact (handoff_error_releases_timer 1234 d 1 o s 22 7 R eq_refl eq_refl ltac:(discriminate)).
Defined.

(** When [TimerThread::new] succeeds, the timer it stores is the one the OS
    created, and no OS timer has been deleted on the way. *)
Theorem handoff_success_keeps_created_timer : forall g iv pr o s tm,
  Handoff.reachable g iv pr o s -> Handoff.ctor s = Handoff.CDone (Timer.Ok tm) ->
  exists h, create_result o = Some h /\ tm = Timer.mk_Timer (Timer.mk_TimerId h) /\
            Timer.creates (Handoff.log s) = 1%nat /\ Timer.deletes (Handoff.log s) = 0%nat.
Proof.
  intros g iv pr o s tm Hr Hc.
  destruct (handoff_reachable_shape g iv pr o s Hr) as [_ [_ [_ S4]]].
  destruct (S4 _ Hc) as [_ [Hres Hl]]. rewrite Hl, timer_new_calls.
  rewrite timer_new_result in Hres.
  destruct (create_result o) as [h|]; [|discriminate].
  destruct (settime_ok o); [|discriminate].
  injection Hres as ->. exists h. repeat split; reflexivity.
Qed.

Lemma handoff_success_keeps_created_timer_witness :
  let d := mk_Duration 0 1000000 in
  let o := mk_os (Some 7) true 0 in
  let s := Handoff.mk_st (Handoff.CDone (fst (Timer.new 1234 d o))) Handoff.KSent
             true [] None None ([] ++ snd (Timer.new 1234 d o)) in
  Handoff.reachable 1234 d 1 o s /\ Timer.deletes (Handoff.log s) = 0%nat.
Proof.
  intros d o s.
  assert (R : Handoff.reachable 1234 d 1 o s).
  { pose proof (Handoff.reach_init 1234 d 1 o) as R.
    hstep R ltac:(fun st => constr:(Handoff.step_signals_spawn 1234 d 1 o st eq_refl)).
    hstep R0 ltac:(fun st => constr:(Handoff.step_send 1234 d 1 o st eq_refl)).
    hstep R ltac:(fun st => constr:(Handoff.step_recv 1234 d 1 o st 1234 [] eq_refl eq_refl)).
    hstep R0 ltac:(fun st => constr:(Handoff.step_timer_new 1234 d 1 o st 1234 eq_refl)).
    exact R. }
  split; [exact R|].
  destruct (handoff_success_keeps_created_timer 1234 d 1 o s _ R eq_refl)
    as [h [_ [_ [_ H]]]].
  exact H.
Defined.

(** ** Releasing the timer at the end of [main] *)

(** Whatever the joins report, [main] releases its non-null OS timer exactly
    once, and as its very last action: on a normal return the [TimerThread]
    is dropped at the end of [main], after a panicking [unwrap] it is dropped
    while unwinding; no other OS call happens during the shutdown. *)
Theorem shutdown_releases_timer_last : forall h jh threads o,
  h <> 0 ->
  exists A,
    Main.shutdown (TT.mk_TimerThread (Some (Timer.mk_Timer (Timer.mk_TimerId h))) (Some jh))
      threads o = A ++ [Main.EOs (Timer_delete h)] /\
    forallb (fun e => negb (Main.is_os e)) A = true.
Proof.
  intros h jh threads o Hh.
  assert (E : is_null h = false) by (unfold is_null; apply Z.eqb_neq; exact Hh).
  unfold Main.shutdown, TT.drop, Timer.Timer_drop, Timer.TimerId_drop,
    timer_delete, emit, bind, ret; simpl. rewrite E. simpl.
  destruct (TT.jh_result jh); simpl.
  - destruct (join_workers_spec threads 0) as [k [Hf _]].
    destruct (Main.join_workers 0 threads) as [evs p]. simpl in *. subst evs.
    exists ([Main.ESleep; Main.EStore; Main.EJoinCarrier] ++ map Main.EJoinWorker (seq 0 k)
            ++ (if p then [Main.EPanic] else [])).
    split; [simpl; rewrite <- !app_assoc; reflexivity|].
    simpl. rewrite forallb_app. apply andb_true_intro. split.
    + clear. generalize O. induction k; intro i; simpl; auto.
    + destruct p; reflexivity.
  - exists [Main.ESleep; Main.EStore; Main.EJoinCarrier; Main.EPanic].
    split; reflexivity.
Qed.

Lemma shutdown_releases_timer_last_witness :
  exists A,
    Main.shutdown (TT.mk_TimerThread (Some (Timer.mk_Timer (Timer.mk_TimerId 7)))
                     (Some (TT.mk_JoinHandle TT.Finished)))
      [TT.mk_JoinHandle TT.Panicked; TT.mk_JoinHandle TT.Finished] (mk_os (Some 7) true 0)
    = A ++ [Main.EOs (Timer_delete 7)] /\
    forallb (fun e => negb (Main.is_os e)) A = true.
Proof.
  exact (shutdown_releases_timer_last 7 (TT.mk_JoinHandle TT.Finished)
           [TT.mk_JoinHandle TT.Panicked; TT.mk_JoinHandle TT.Finished]
           (mk_os (Some 7) true 0) ltac:(discriminate)).
Defined.
